(** * VoltDB execution engine: serializable exceptions

    A shallow embedding of [src/ee/common/SerializableEEException.h]:
    the exception type enumeration, the [SerializableEEException] base
    class with its one concrete subclass [UnexpectedEEException], and the
    two raising macros [throwSerializableEEException] and
    [throwUnexpectedEEExceptionStreamed].

    Conventions.
    - [std::string] is [string]; a [char] is an [ascii].
    - A [char] array is a list of cells, each either initialised
      ([Some c]) or indeterminate ([None]); every store is bounds checked
      and every load of an indeterminate cell is undefined behaviour.
    - Undefined behaviour is [None] in the [option] monad.
    - Virtual member functions are fields of a class table carried by
      every object. *)

From Stdlib Require Import ZArith List String Ascii DecimalString Lia Bool.
Import ListNotations.

Local Open Scope string_scope.
Local Open Scope list_scope.

(** ** The exception type enumeration *)

Inductive VoltEEExceptionType : Set :=
| VOLT_EE_EXCEPTION_TYPE_NONE
| VOLT_EE_EXCEPTION_TYPE_EEEXCEPTION
| VOLT_EE_EXCEPTION_TYPE_SQL
| VOLT_EE_EXCEPTION_TYPE_CONSTRAINT_VIOLATION
| VOLT_EE_EXCEPTION_TYPE_INTERRUPT.

(** The enumerator values written in the header. *)
Definition ordinal (t : VoltEEExceptionType) : Z :=
  match t with
  | VOLT_EE_EXCEPTION_TYPE_NONE => 0
  | VOLT_EE_EXCEPTION_TYPE_EEEXCEPTION => 1
  | VOLT_EE_EXCEPTION_TYPE_SQL => 2
  | VOLT_EE_EXCEPTION_TYPE_CONSTRAINT_VIOLATION => 3
  | VOLT_EE_EXCEPTION_TYPE_INTERRUPT => 4
  end%Z.

(** The enumerator, if any, that carries a given value. *)
Definition of_ordinal (z : Z) : option VoltEEExceptionType :=
  match z with
  | 0%Z => Some VOLT_EE_EXCEPTION_TYPE_NONE
  | 1%Z => Some VOLT_EE_EXCEPTION_TYPE_EEEXCEPTION
  | 2%Z => Some VOLT_EE_EXCEPTION_TYPE_SQL
  | 3%Z => Some VOLT_EE_EXCEPTION_TYPE_CONSTRAINT_VIOLATION
  | 4%Z => Some VOLT_EE_EXCEPTION_TYPE_INTERRUPT
  | _ => None
  end.

Definition all_exception_types : list VoltEEExceptionType :=
  [ VOLT_EE_EXCEPTION_TYPE_NONE;
    VOLT_EE_EXCEPTION_TYPE_EEEXCEPTION;
    VOLT_EE_EXCEPTION_TYPE_SQL;
    VOLT_EE_EXCEPTION_TYPE_CONSTRAINT_VIOLATION;
    VOLT_EE_EXCEPTION_TYPE_INTERRUPT ].

(** ** The output sink, [ReferenceSerializeOutput] *)

Inductive ByteOrder : Set := LittleEndian | BigEndian.

(** Modelled from the spec: the class [ReferenceSerializeOutput] is only
    forward declared in the header.  The spec describes it as an ordered
    byte sink with an implicit write position and two typed writes, a
    32-bit integer and a length-prefixed text; the byte order is left to
    the host, so it is a field of the sink. *)
Record ReferenceSerializeOutput : Set := mkOutput {
  byte_order : ByteOrder;
  written : list Byte.byte
}.

Definition position (out : ReferenceSerializeOutput) : nat :=
  List.length (written out).

Definition byte_of_Z (z : Z) : Byte.byte :=
  byte_of_ascii (ascii_of_N (Z.to_N (Z.land z 255))).

Definition Z_of_byte (b : Byte.byte) : Z := Z.of_N (Byte.to_N b).

(** The four bytes of a 32-bit two's complement integer, least
    significant first. *)
Definition int32_bytes_le (v : Z) : list Byte.byte :=
  [ byte_of_Z v;
    byte_of_Z (Z.shiftr v 8);
    byte_of_Z (Z.shiftr v 16);
    byte_of_Z (Z.shiftr v 24) ].

Definition encode_int32 (o : ByteOrder) (v : Z) : list Byte.byte :=
  match o with
  | LittleEndian => int32_bytes_le v
  | BigEndian => rev (int32_bytes_le v)
  end.

(** [static_cast<int32_t>]: reduction into the signed 32-bit range. *)
Definition to_int32 (v : Z) : Z :=
  ((v + 2 ^ 31) mod 2 ^ 32 - 2 ^ 31)%Z.

Definition decode_int32_le (bs : list Byte.byte) : option Z :=
  match bs with
  | [b0; b1; b2; b3] =>
      Some (to_int32 (Z_of_byte b0 + 256 * Z_of_byte b1
                      + 65536 * Z_of_byte b2 + 16777216 * Z_of_byte b3))
  | _ => None
  end.

Definition decode_int32 (o : ByteOrder) (bs : list Byte.byte) : option Z :=
  match o with
  | LittleEndian => decode_int32_le bs
  | BigEndian => decode_int32_le (rev bs)
  end.

Definition writeBytes (bs : list Byte.byte) (out : ReferenceSerializeOutput)
  : ReferenceSerializeOutput :=
  mkOutput (byte_order out) (written out ++ bs).

Definition writeInt (v : Z) (out : ReferenceSerializeOutput)
  : ReferenceSerializeOutput :=
  writeBytes (encode_int32 (byte_order out) v) out.

(** A length-prefixed text: the length as a 32-bit integer, then the
    characters. *)
Definition writeTextString (s : string) (out : ReferenceSerializeOutput)
  : ReferenceSerializeOutput :=
  writeBytes (list_byte_of_string s)
             (writeInt (Z.of_nat (String.length s)) out).

(** What an implementation of the hook [p_serialize] can do to the sink:
    a sequence of typed writes at the current position. *)
Inductive SerializeWrite : Set :=
| WriteInt (v : Z)
| WriteTextString (s : string).

Definition run_write (w : SerializeWrite) (out : ReferenceSerializeOutput)
  : ReferenceSerializeOutput :=
  match w with
  | WriteInt v => writeInt v out
  | WriteTextString s => writeTextString s out
  end.

Definition run_writes (ws : list SerializeWrite)
    (out : ReferenceSerializeOutput) : ReferenceSerializeOutput :=
  fold_left (fun o w => run_write w o) ws out.

(** The bytes a sequence of writes produces, for a given byte order. *)
Fixpoint bytes_of_writes (o : ByteOrder) (ws : list SerializeWrite)
  : list Byte.byte :=
  match ws with
  | [] => []
  | WriteInt v :: ws' => encode_int32 o v ++ bytes_of_writes o ws'
  | WriteTextString s :: ws' =>
      encode_int32 o (Z.of_nat (String.length s))
        ++ list_byte_of_string s ++ bytes_of_writes o ws'
  end.

(** A reader for the format the sink writes, used to state what the
    written bytes mean to the host. *)
Definition readInt (o : ByteOrder) (bs : list Byte.byte)
  : option (Z * list Byte.byte) :=
  match decode_int32 o (firstn 4 bs) with
  | Some v => Some (v, skipn 4 bs)
  | None => None
  end.

Definition readTextString (o : ByteOrder) (bs : list Byte.byte)
  : option (string * list Byte.byte) :=
  match readInt o bs with
  | Some (n, rest) =>
      if (0 <=? n)%Z && (Z.to_nat n <=? List.length rest)%nat
      then Some (string_of_list_byte (firstn (Z.to_nat n) rest),
                 skipn (Z.to_nat n) rest)
      else None
  | None => None
  end.

(** A serialized exception read back: the type value, the message and
    the bytes of the trailer. *)
Definition deserialize (o : ByteOrder) (bs : list Byte.byte)
  : option (Z * string * list Byte.byte) :=
  match readInt o bs with
  | Some (t, rest) =>
      match readTextString o rest with
      | Some (m, trailer) => Some (t, m, trailer)
      | None => None
      end
  | None => None
  end.

(** ** The class [SerializableEEException] *)

(** The virtual member functions of the class.  Each receives what the
    base class exposes to its subclasses, the type and the stored
    message; a subclass's own fields are captured in the closure. *)
Record ExceptionClass : Type := mkClass {
  virtual_message : string -> string;
  virtual_p_serialize : VoltEEExceptionType -> string -> list SerializeWrite
}.

Record SerializableEEException : Type := mkException {
  m_exceptionType : VoltEEExceptionType;
  m_message : string;
  dynamic_class : ExceptionClass
}.

(** [virtual std::string message() const { return m_message; }], the
    implementation a subclass inherits unless it overrides. *)
Definition SerializableEEException_message (stored : string) : string :=
  stored.

(** Modelled from the spec: the protected base constructor
    [SerializableEEException(exceptionType, message)] is declared in the
    header and defined elsewhere.  The spec has the discriminant "set once
    at construction" and the message stored as given. *)
Definition SerializableEEException_ctor (cls : ExceptionClass)
    (exceptionType : VoltEEExceptionType) (message : string)
  : SerializableEEException :=
  mkException exceptionType message cls.

Definition message (e : SerializableEEException) : string :=
  virtual_message (dynamic_class e) (m_message e).

Definition getType (e : SerializableEEException) : VoltEEExceptionType :=
  m_exceptionType e.

(** [m_message += more]; the const member [m_exceptionType] and the
    dynamic class are untouched. *)
Definition appendContextToMessage (more : string)
    (e : SerializableEEException) : SerializableEEException :=
  mkException (m_exceptionType e) (m_message e ++ more)%string (dynamic_class e).

Definition p_serialize (e : SerializableEEException)
  : list SerializeWrite :=
  virtual_p_serialize (dynamic_class e) (getType e) (message e).

(** Modelled from the spec: [serialize] is declared in the header and
    defined elsewhere.  The spec has it write, in order, the discriminant
    ordinal as a fixed-width integer, the current [message()] as a
    length-prefixed text, and the trailer of the hook [p_serialize].  It
    is a const, non-virtual member: the object is not part of the
    result. *)
Definition serialize (e : SerializableEEException)
    (output : ReferenceSerializeOutput) : ReferenceSerializeOutput :=
  run_writes (p_serialize e)
    (writeTextString (message e)
       (writeInt (ordinal (getType e)) output)).

(** ** The class [UnexpectedEEException] *)

(** Modelled from the spec: [UnexpectedEEException::p_serialize] is
    declared in the header and defined elsewhere.  The spec has it write
    nothing. *)
Definition UnexpectedEEException_p_serialize
    (_ : VoltEEExceptionType) (_ : string) : list SerializeWrite := [].

(** The subclass declares no [message()] of its own. *)
Definition UnexpectedEEException_class : ExceptionClass :=
  mkClass SerializableEEException_message UnexpectedEEException_p_serialize.

Definition UnexpectedEEException (message : string)
  : SerializableEEException :=
  SerializableEEException_ctor UnexpectedEEException_class
    VOLT_EE_EXCEPTION_TYPE_EEEXCEPTION message.

(** ** Sequences of member calls on one object *)

Inductive Call : Set :=
| CallMessage
| CallGetType
| CallAppendContextToMessage (more : string)
| CallSerialize.

Inductive CallResult : Set :=
| RetString (s : string)
| RetType (t : VoltEEExceptionType)
| RetVoid.

Record CallState : Type := mkState {
  object : SerializableEEException;
  sink : ReferenceSerializeOutput;
  returned : list CallResult
}.

Definition do_call (c : Call) (st : CallState) : CallState :=
  match c with
  | CallMessage =>
      mkState (object st) (sink st)
              (returned st ++ [RetString (message (object st))])
  | CallGetType =>
      mkState (object st) (sink st)
              (returned st ++ [RetType (getType (object st))])
  | CallAppendContextToMessage more =>
      mkState (appendContextToMessage more (object st)) (sink st)
              (returned st ++ [RetVoid])
  | CallSerialize =>
      mkState (object st) (serialize (object st) (sink st))
              (returned st ++ [RetVoid])
  end.

Definition run_calls (cs : list Call) (st : CallState) : CallState :=
  fold_left (fun s c => do_call c s) cs st.

(** ** Character arrays and C strings *)

Definition NUL : ascii := zero.

(** A [char] array: [None] is a cell that was never written. *)
Definition char_array : Set := list (option ascii).

(** [a[i] = c]; [None] when [i] is outside the array. *)
Fixpoint store (a : char_array) (i : nat) (c : ascii) : option char_array :=
  match a, i with
  | [], _ => None
  | _ :: a', O => Some (Some c :: a')
  | x :: a', S i' => option_map (cons x) (store a' i' c)
  end.

(** Consecutive stores of [cs] from index [i] on. *)
Fixpoint store_chars (a : char_array) (i : nat) (cs : list ascii)
  : option char_array :=
  match cs with
  | [] => Some a
  | c :: cs' =>
      match store a i c with
      | None => None
      | Some a' => store_chars a' (S i) cs'
      end
  end.

(** The characters of a C string: everything before the first NUL. *)
Fixpoint c_chars (cs : list ascii) : list ascii :=
  match cs with
  | [] => []
  | c :: cs' => if (c =? NUL)%char then [] else c :: c_chars cs'
  end.

(** The constructor [std::string(const char * )] applied to an array: it
    reads up to the first NUL, and has no defined result when it meets an
    indeterminate cell or the end of the array first. *)
Fixpoint string_of_c_str (a : char_array) : option string :=
  match a with
  | [] => None
  | None :: _ => None
  | Some c :: a' =>
      if (c =? NUL)%char then Some EmptyString
      else option_map (String c) (string_of_c_str a')
  end.

(** ** Formatted output *)

(** The arguments of a variadic call after default promotion. *)
Inductive va_arg : Set :=
| va_int (z : Z)
| va_str (s : string).

(** The decimal digits of an [int], with a minus sign when negative. *)
Definition decimal (z : Z) : list ascii :=
  list_ascii_of_string (NilZero.string_of_int (Z.to_int (to_int32 z))).

(** The conversion of an [int] to [unsigned char]. *)
Definition char_of_int (z : Z) : ascii :=
  ascii_of_N (Z.to_N (z mod 256)).

(** The output of the [printf] family for the conversions [%d], [%s],
    [%c] and [%%] without flags, and for ordinary characters.
    [in_conversion] says that the previous character was the [%] that
    opens a conversion.  A conversion outside this fragment, a missing
    argument or an argument of the wrong type has no defined output. *)
Fixpoint vformat (in_conversion : bool) (format : string)
    (args : list va_arg) : option (list ascii) :=
  match format with
  | EmptyString => if in_conversion then None else Some []
  | String c rest =>
      if in_conversion then
        if (c =? "%")%char then
          option_map (cons c) (vformat false rest args)
        else if (c =? "d")%char then
          match args with
          | va_int z :: args' =>
              option_map (app (decimal z)) (vformat false rest args')
          | _ => None
          end
        else if (c =? "s")%char then
          match args with
          | va_str s :: args' =>
              option_map (app (c_chars (list_ascii_of_string s)))
                         (vformat false rest args')
          | _ => None
          end
        else if (c =? "c")%char then
          match args with
          | va_int z :: args' =>
              option_map (cons (char_of_int z)) (vformat false rest args')
          | _ => None
          end
        else None
      else if (c =? NUL)%char then Some []
      else if (c =? "%")%char then vformat true rest args
      else option_map (cons c) (vformat false rest args)
  end.

(** What the formatting of the C library produces for a format and its
    arguments, when that is defined. *)
Definition formatter : Type := string -> list va_arg -> option (list ascii).

Definition printf_output : formatter := vformat false.

(** [snprintf(str, size, format, ...)]: at most [size - 1] characters of
    the output are stored, followed by a NUL; nothing is stored when
    [size] is zero.  The result is the length of the whole output.  The
    function belongs to the C library: the output it formats is a
    parameter, [printf_output] being the instance used in examples. *)
Definition snprintf (output_of : formatter) (str : char_array) (size : nat)
    (format : string) (args : list va_arg) : option (char_array * Z) :=
  match output_of format args with
  | None => None
  | Some out =>
      match size with
      | O => Some (str, Z.of_nat (List.length out))
      | S room =>
          match store_chars str 0 (firstn room out ++ [NUL]) with
          | None => None
          | Some str' => Some (str', Z.of_nat (List.length out))
          end
      end
  end.

(** ** The raising macros *)

(** How a block of statements ends. *)
Inductive Completion : Type :=
| Normal
| Thrown (e : SerializableEEException).

(** [{ char msg[8192]; snprintf(msg, 8192, __VA_ARGS__);
       throw voltdb::UnexpectedEEException(msg); }]
    with the state of [msg] after the call of [snprintf]. *)
Definition throwSerializableEEException_msg (output_of : formatter)
    (format : string) (args : list va_arg) : option char_array :=
  let msg : char_array := repeat None 8192 in
  option_map fst (snprintf output_of msg 8192 format args).

Definition throwSerializableEEException (output_of : formatter)
    (format : string) (args : list va_arg) : option Completion :=
  match throwSerializableEEException_msg output_of format args with
  | None => None
  | Some msg =>
      match string_of_c_str msg with
      | None => None
      | Some s => Some (Thrown (UnexpectedEEException s))
      end
  end.

(** What can stand to the right of [<<]. *)
Inductive Streamable : Set :=
| StreamCStr (s : string)
| StreamString (s : string)
| StreamInt (z : Z)
| StreamChar (c : ascii).

Definition stream_text (v : Streamable) : string :=
  match v with
  | StreamCStr s => string_of_list_ascii (c_chars (list_ascii_of_string s))
  | StreamString s => s
  | StreamInt z => string_of_list_ascii (decimal z)
  | StreamChar c => String c EmptyString
  end.

(** [buffer << v] on a [std::ostringstream]. *)
Definition stream_put (buffer : string) (v : Streamable) : string :=
  (buffer ++ stream_text v)%string.

Definition newline : string := String (ascii_of_nat 10) EmptyString.

(** [{ std::ostringstream tUEEESbuffer;
       tUEEESbuffer << STREAMABLES << " " << __FILE__ << ":" << __LINE__ << "\n";
       throw voltdb::UnexpectedEEException(tUEEESbuffer.str()); }] *)
Definition throwUnexpectedEEExceptionStreamed (STREAMABLES : list Streamable)
    (FILE : string) (LINE : Z) : Completion :=
  let tUEEESbuffer := EmptyString in
  let tUEEESbuffer :=
    fold_left stream_put
      (STREAMABLES ++
         [StreamCStr " "; StreamCStr FILE; StreamCStr ":"; StreamInt LINE;
          StreamCStr newline])
      tUEEESbuffer in
  Thrown (UnexpectedEEException tUEEESbuffer).

(** The message a block raised, if it raised. *)
Definition thrown_message (c : option Completion) : option string :=
  match c with
  | Some (Thrown e) => Some (message e)
  | _ => None
  end.

(** The types handed back by [getType] during a run. *)
Definition returned_types (rs : list CallResult) : list VoltEEExceptionType :=
  flat_map (fun r => match r with RetType t => [t] | _ => [] end) rs.

(** ** Notions used in the statements *)

(** A character sequence without NUL. *)
Definition no_NUL (cs : list ascii) : bool :=
  forallb (fun c => negb (c =? NUL)%char) cs.

(** A format made of ordinary characters only: no NUL, no [%]. *)
Definition plain_format (format : string) : bool :=
  forallb (fun c => negb (c =? NUL)%char && negb (c =? "%")%char)
          (list_ascii_of_string format).

(** [appendContextToMessage] called once for each text, in order, as by
    the frames an exception passes on its way up. *)
Definition appendContexts (mores : list string)
    (e : SerializableEEException) : SerializableEEException :=
  fold_left (fun x more => appendContextToMessage more x) mores e.

(** The arguments of the calls of [appendContextToMessage] in a sequence
    of calls, one after the other. *)
Fixpoint appended_text (cs : list Call) : string :=
  match cs with
  | [] => EmptyString
  | CallAppendContextToMessage more :: cs' =>
      (more ++ appended_text cs')%string
  | _ :: cs' => appended_text cs'
  end.

(** The values of the type [int]. *)
Definition in_int_range (z : Z) : bool :=
  ((- 2 ^ 31 <=? z) && (z <? 2 ^ 31))%Z.

(** A streamed value whose integer, if it is one, is an [int]. *)
Definition streamable_in_range (v : Streamable) : bool :=
  match v with
  | StreamInt z => in_int_range z
  | _ => true
  end.

(** The decimal digits of an integer, with a minus sign when negative. *)
Definition int_digits (z : Z) : string :=
  NilZero.string_of_int (Z.to_int z).

(** What [<<] puts into the stream, in its default state, for a C
    string, a [std::string], an [int] and a [char]. *)
Definition value_text (v : Streamable) : string :=
  match v with
  | StreamCStr s => string_of_list_ascii (c_chars (list_ascii_of_string s))
  | StreamString s => s
  | StreamInt z => int_digits z
  | StreamChar c => String c EmptyString
  end.

(** * Properties *)

(** ** Strings *)

Lemma append_assoc (a b c : string) :
  ((a ++ b) ++ c = a ++ (b ++ c))%string.
Proof.
  induction a as [|x a IH]; simpl; [reflexivity | now rewrite IH].
Qed.

Lemma append_empty_r (a : string) : (a ++ EmptyString)%string = a.
Proof.
  induction a as [|x a IH]; simpl; [reflexivity | now rewrite IH].
Qed.

Lemma append_length (a b : string) :
  String.length (a ++ b)%string = String.length a + String.length b.
Proof.
  induction a as [|x a IH]; simpl; [reflexivity | now rewrite IH].
Qed.

Lemma prefix_append (a k : string) :
  String.prefix a (a ++ k)%string = true.
Proof.
  induction a as [|x a IH]; simpl.
  - now destruct k.
  - destruct (ascii_dec x x) as [_|N]; [exact IH | now elim N].
Qed.

Lemma prefix_inv (a b : string) :
  String.prefix a b = true -> exists k, b = (a ++ k)%string.
Proof.
  revert b; induction a as [|x a IH]; intros b H.
  - now exists b.
  - destruct b as [|y b]; simpl in H; [discriminate|].
    destruct (ascii_dec x y) as [->|_]; [|discriminate].
    destruct (IH b H) as [k ->]. now exists k.
Qed.

Lemma prefix_trans (a b c : string) :
  String.prefix a b = true -> String.prefix b c = true ->
  String.prefix a c = true.
Proof.
  intros Hab Hbc.
  destruct (prefix_inv _ _ Hab) as [k ->].
  destruct (prefix_inv _ _ Hbc) as [k' ->].
  rewrite append_assoc. apply prefix_append.
Qed.

Lemma prefix_refl (a : string) : String.prefix a a = true.
Proof.
  rewrite <- (append_empty_r a) at 2. apply prefix_append.
Qed.

(** ** Sequences of calls *)

Lemma run_calls_cons (c : Call) (cs : list Call) (st : CallState) :
  run_calls (c :: cs) st = run_calls cs (do_call c st).
Proof. reflexivity. Qed.

(** An invariant of [do_call] holds after any sequence of calls. *)
Lemma run_calls_invariant (P : CallState -> Prop) :
  (forall c st, P st -> P (do_call c st)) ->
  forall cs st, P st -> P (run_calls cs st).
Proof.
  intros Hstep cs; induction cs as [|c cs IH]; intros st Hst.
  - exact Hst.
  - rewrite run_calls_cons. apply IH, Hstep, Hst.
Qed.

Lemma do_call_type (c : Call) (st : CallState) :
  getType (object (do_call c st)) = getType (object st).
Proof. destruct c; reflexivity. Qed.

Lemma do_call_class (c : Call) (st : CallState) :
  dynamic_class (object (do_call c st)) = dynamic_class (object st).
Proof. destruct c; reflexivity. Qed.

Lemma do_call_message_prefix (c : Call) (st : CallState) :
  String.prefix (m_message (object st))
                (m_message (object (do_call c st))) = true.
Proof.
  destruct c; simpl; try apply prefix_refl. apply prefix_append.
Qed.

Lemma returned_types_app (rs rs' : list CallResult) :
  returned_types (rs ++ rs') = (returned_types rs ++ returned_types rs')%list.
Proof. unfold returned_types. apply flat_map_app. Qed.

Lemma do_call_returned_types (t : VoltEEExceptionType) (c : Call)
    (st : CallState) :
  getType (object st) = t ->
  Forall (eq t) (returned_types (returned st)) ->
  Forall (eq t) (returned_types (returned (do_call c st))).
Proof.
  intros Ht Hall.
  destruct c; simpl; rewrite returned_types_app; apply Forall_app;
    split; trivial; simpl; auto.
Qed.

(** ** The enumeration *)

(** C2: the enumeration assigns the values 0 (none), 1 (generic engine
    exception), 2 (query execution), 3 (constraint violation) and 4
    (interruption), and has no other member: every enumerator is one of
    the five listed, and the five carry exactly the values 0 to 4. *)
Theorem exception_type_ordinals :
  ordinal VOLT_EE_EXCEPTION_TYPE_NONE = 0%Z /\
  ordinal VOLT_EE_EXCEPTION_TYPE_EEEXCEPTION = 1%Z /\
  ordinal VOLT_EE_EXCEPTION_TYPE_SQL = 2%Z /\
  ordinal VOLT_EE_EXCEPTION_TYPE_CONSTRAINT_VIOLATION = 3%Z /\
  ordinal VOLT_EE_EXCEPTION_TYPE_INTERRUPT = 4%Z /\
  (forall t : VoltEEExceptionType, In t all_exception_types) /\
  map ordinal all_exception_types = [0; 1; 2; 3; 4]%Z /\
  (forall t : VoltEEExceptionType, of_ordinal (ordinal t) = Some t).
Proof.
  repeat split; try reflexivity.
  - intros t; destruct t; simpl; tauto.
  - intros t; destruct t; reflexivity.
Qed.

(** ** Construction *)

(** C3: for every text [m], the empty one included,
    [UnexpectedEEException(m)] is an object of type
    [VOLT_EE_EXCEPTION_TYPE_EEEXCEPTION], value 1, whose [message()] is
    [m] itself; the constructor is a total function. *)
Theorem UnexpectedEEException_construction :
  forall m : string,
    getType (UnexpectedEEException m) = VOLT_EE_EXCEPTION_TYPE_EEEXCEPTION /\
    ordinal (getType (UnexpectedEEException m)) = 1%Z /\
    message (UnexpectedEEException m) = m /\
    message (UnexpectedEEException EmptyString) = EmptyString.
Proof.
  intros m. repeat split.
Qed.

(** ** Appending context *)

(** C5: appending [A] and then [B] leaves the same object, hence the same
    message, as appending [A ++ B] at once; an append adds its argument
    to the end of the stored message and nothing else. *)
Theorem appendContextToMessage_assoc :
  forall (e : SerializableEEException) (A B : string),
    appendContextToMessage B (appendContextToMessage A e)
      = appendContextToMessage (A ++ B)%string e /\
    message (appendContextToMessage B (appendContextToMessage A e))
      = message (appendContextToMessage (A ++ B)%string e) /\
    m_message (appendContextToMessage A e) = (m_message e ++ A)%string.
Proof.
  intros e A B.
  assert (H : appendContextToMessage B (appendContextToMessage A e)
              = appendContextToMessage (A ++ B)%string e).
  { unfold appendContextToMessage; simpl. now rewrite append_assoc. }
  repeat split; [exact H | now rewrite H].
Qed.

(** C9: the stored message before [appendContextToMessage] is a prefix of
    the stored message after it, and this extends to every sequence of
    member calls: the message at the start is a prefix of the message at
    the end, which is at least as long. *)
Theorem message_only_grows :
  forall (e : SerializableEEException) (more : string) (calls : list Call)
         (out : ReferenceSerializeOutput),
    String.prefix (m_message e) (m_message (appendContextToMessage more e))
      = true /\
    String.prefix (m_message e)
      (m_message (object (run_calls calls (mkState e out [])))) = true /\
    String.length (m_message e)
      <= String.length
           (m_message (object (run_calls calls (mkState e out [])))).
Proof.
  intros e more calls out.
  assert (H : String.prefix (m_message e)
      (m_message (object (run_calls calls (mkState e out [])))) = true).
  { apply (run_calls_invariant
             (fun st => String.prefix (m_message e) (m_message (object st))
                        = true)).
    - intros c st Hst.
      exact (prefix_trans _ _ _ Hst (do_call_message_prefix c st)).
    - apply prefix_refl. }
  split; [apply prefix_append | split; [exact H|]].
  destruct (prefix_inv _ _ H) as [k ->].
  rewrite append_length. lia.
Qed.

(** ** The discriminant *)

(** C8: after any sequence of calls of [message], [getType],
    [appendContextToMessage] and [serialize], the object has the type it
    was constructed with, and every call of [getType] on the way returned
    that type; for an [UnexpectedEEException] this type is never
    [VOLT_EE_EXCEPTION_TYPE_NONE], whose value is 0. *)
Theorem discriminant_immutable :
  forall (e : SerializableEEException) (calls : list Call)
         (out : ReferenceSerializeOutput),
    getType (object (run_calls calls (mkState e out []))) = getType e /\
    Forall (eq (getType e))
      (returned_types (returned (run_calls calls (mkState e out [])))) /\
    (forall m : string,
       getType (object (run_calls calls
                          (mkState (UnexpectedEEException m) out [])))
         <> VOLT_EE_EXCEPTION_TYPE_NONE /\
       ordinal (getType (object (run_calls calls
                          (mkState (UnexpectedEEException m) out []))))
         <> 0%Z).
Proof.
  assert (Inv : forall e calls out,
    getType (object (run_calls calls (mkState e out []))) = getType e /\
    Forall (eq (getType e))
      (returned_types (returned (run_calls calls (mkState e out []))))).
  { intros e calls out.
    apply (run_calls_invariant
             (fun st => getType (object st) = getType e /\
                        Forall (eq (getType e))
                               (returned_types (returned st)))).
    - intros c st [Ht Hall]. split.
      + now rewrite do_call_type.
      + now apply do_call_returned_types.
    - split; [reflexivity | constructor]. }
  intros e calls out.
  destruct (Inv e calls out) as [Ht Hall].
  split; [exact Ht | split; [exact Hall|]].
  intros m. destruct (Inv (UnexpectedEEException m) calls out) as [Hm _].
  rewrite Hm. simpl. split; [discriminate | lia].
Qed.

(** ** The sink *)

Lemma land_255 (z : Z) : Z.land z 255 = (z mod 256)%Z.
Proof.
  change 255%Z with (Z.ones 8). now rewrite Z.land_ones by lia.
Qed.

Lemma Z_of_byte_of_Z (z : Z) : Z_of_byte (byte_of_Z z) = (z mod 256)%Z.
Proof.
  unfold Z_of_byte, byte_of_Z. rewrite land_255.
  assert (H := Z.mod_pos_bound z 256 ltac:(lia)).
  rewrite (Byte.to_of_N (N_of_ascii (ascii_of_N (Z.to_N (z mod 256))))).
  - rewrite N_ascii_embedding by lia. lia.
  - symmetry. apply byte_of_ascii_via_N.
Qed.

Lemma int32_bytes_sum (v : Z) :
  to_int32 (v mod 256 + 256 * (Z.shiftr v 8 mod 256)
            + 65536 * (Z.shiftr v 16 mod 256)
            + 16777216 * (Z.shiftr v 24 mod 256)) = to_int32 v.
Proof.
  rewrite !Z.shiftr_div_pow2 by lia.
  unfold to_int32.
  change (2 ^ 8)%Z with 256%Z. change (2 ^ 16)%Z with 65536%Z.
  change (2 ^ 24)%Z with 16777216%Z.
  change (2 ^ 31)%Z with 2147483648%Z. change (2 ^ 32)%Z with 4294967296%Z.
  Z.div_mod_to_equations. lia.
Qed.

Lemma to_int32_small (v : Z) :
  (- 2 ^ 31 <= v < 2 ^ 31)%Z -> to_int32 v = v.
Proof.
  intros H. unfold to_int32.
  rewrite Z.mod_small; lia.
Qed.

Lemma encode_int32_length (o : ByteOrder) (v : Z) :
  List.length (encode_int32 o v) = 4.
Proof. destruct o; reflexivity. Qed.

(** Reading back what [writeInt] wrote gives the value as an [int32_t]. *)
Lemma decode_encode_int32 (o : ByteOrder) (v : Z) :
  decode_int32 o (encode_int32 o v) = Some (to_int32 v).
Proof.
  assert (H : decode_int32_le (int32_bytes_le v) = Some (to_int32 v)).
  { unfold decode_int32_le, int32_bytes_le.
    rewrite !Z_of_byte_of_Z. now rewrite int32_bytes_sum. }
  destruct o; unfold decode_int32, encode_int32; [exact H|].
  now rewrite rev_involutive.
Qed.

Lemma readInt_encode (o : ByteOrder) (v : Z) (rest : list Byte.byte) :
  readInt o (encode_int32 o v ++ rest) = Some (to_int32 v, rest).
Proof.
  unfold readInt.
  assert (L := encode_int32_length o v).
  rewrite firstn_app, L, Nat.sub_diag, firstn_O, app_nil_r.
  rewrite <- L at 1. rewrite firstn_all, decode_encode_int32.
  rewrite <- L. rewrite skipn_app, skipn_all, Nat.sub_diag. reflexivity.
Qed.

Lemma list_byte_of_string_length (s : string) :
  List.length (list_byte_of_string s) = String.length s.
Proof.
  unfold list_byte_of_string. rewrite length_map.
  induction s as [|c s IH]; simpl; [reflexivity | now rewrite IH].
Qed.

Lemma readTextString_encode (o : ByteOrder) (s : string)
    (rest : list Byte.byte) :
  (Z.of_nat (String.length s) < 2 ^ 31)%Z ->
  readTextString o
    (encode_int32 o (Z.of_nat (String.length s))
       ++ list_byte_of_string s ++ rest) = Some (s, rest).
Proof.
  intros Hlen. unfold readTextString.
  rewrite readInt_encode, to_int32_small by lia.
  rewrite Nat2Z.id.
  assert (L := list_byte_of_string_length s).
  replace (0 <=? Z.of_nat (String.length s))%Z with true
    by (symmetry; apply Z.leb_le; lia).
  replace (String.length s <=? List.length (list_byte_of_string s ++ rest))%nat
    with true
    by (symmetry; apply Nat.leb_le; rewrite length_app; lia).
  simpl. rewrite <- L.
  rewrite firstn_app, Nat.sub_diag, firstn_O, app_nil_r, firstn_all.
  rewrite skipn_app, skipn_all, Nat.sub_diag. simpl.
  now rewrite string_of_list_byte_of_string.
Qed.

Lemma run_writes_written (ws : list SerializeWrite)
    (out : ReferenceSerializeOutput) :
  run_writes ws out
    = mkOutput (byte_order out)
        (written out ++ bytes_of_writes (byte_order out) ws).
Proof.
  revert out; induction ws as [|w ws IH]; intros [o bs]; simpl.
  - now rewrite app_nil_r.
  - change (run_writes (w :: ws) (mkOutput o bs))
      with (run_writes ws (run_write w (mkOutput o bs))).
    rewrite IH. destruct w; simpl; now rewrite <- ?app_assoc.
Qed.

Lemma serialize_written (e : SerializableEEException)
    (out : ReferenceSerializeOutput) :
  serialize e out
  = mkOutput (byte_order out)
      (written out
         ++ encode_int32 (byte_order out) (ordinal (getType e))
         ++ encode_int32 (byte_order out)
              (Z.of_nat (String.length (message e)))
         ++ list_byte_of_string (message e)
         ++ bytes_of_writes (byte_order out) (p_serialize e)).
Proof.
  unfold serialize. rewrite run_writes_written.
  destruct out as [o bs]; simpl. now rewrite <- !app_assoc.
Qed.

Lemma ordinal_int32 (t : VoltEEExceptionType) : to_int32 (ordinal t) = ordinal t.
Proof. destruct t; reflexivity. Qed.

(** Reading a serialized exception back gives its type value, its
    message and the bytes of its trailer, as long as the length of the
    message fits the 32-bit length field. *)
Lemma deserialize_serialize (e : SerializableEEException) (o : ByteOrder) :
  (Z.of_nat (String.length (message e)) < 2 ^ 31)%Z ->
  deserialize o (written (serialize e (mkOutput o [])))
  = Some (ordinal (getType e), message e, bytes_of_writes o (p_serialize e)).
Proof.
  intros Hlen. rewrite serialize_written. simpl.
  unfold deserialize.
  now rewrite readInt_encode, readTextString_encode, ordinal_int32.
Qed.

(** ** Serialization *)

(** C1: for every exception object, whatever its class, type and
    message, [serialize] appends to the sink, in this order, the value
    of the type as a 32-bit integer, the length of [message()] as a
    32-bit integer followed by the bytes of [message()], and the trailer
    written by [p_serialize].  The four bytes at the old write position
    read back as the value of the type; the type, the length and the
    message fill the next [8 + length] bytes whatever the class of the
    object; and the bytes of the message convert back to the message. *)
Theorem serialize_framing :
  forall (e : SerializableEEException) (output : ReferenceSerializeOutput),
    written (serialize e output)
    = (written output
        ++ encode_int32 (byte_order output) (ordinal (getType e))
        ++ encode_int32 (byte_order output)
             (Z.of_nat (String.length (message e)))
        ++ list_byte_of_string (message e)
        ++ bytes_of_writes (byte_order output) (p_serialize e))%list /\
    byte_order (serialize e output) = byte_order output /\
    readInt (byte_order output)
      (skipn (position output) (written (serialize e output)))
    = Some (ordinal (getType e),
            (encode_int32 (byte_order output)
               (Z.of_nat (String.length (message e)))
             ++ list_byte_of_string (message e)
             ++ bytes_of_writes (byte_order output) (p_serialize e))%list) /\
    firstn (8 + String.length (message e))
      (skipn (position output) (written (serialize e output)))
    = (encode_int32 (byte_order output) (ordinal (getType e))
        ++ encode_int32 (byte_order output)
             (Z.of_nat (String.length (message e)))
        ++ list_byte_of_string (message e))%list /\
    List.length (list_byte_of_string (message e))
      = String.length (message e) /\
    string_of_list_byte (list_byte_of_string (message e)) = message e.
Proof.
  intros e output. rewrite serialize_written. cbn [written byte_order].
  assert (Hskip : forall tl : list Byte.byte,
             skipn (position output) (written output ++ tl) = tl).
  { intros tl. unfold position.
    now rewrite skipn_app, skipn_all, Nat.sub_diag. }
  rewrite Hskip.
  repeat split.
  - now rewrite readInt_encode, ordinal_int32.
  - rewrite !app_assoc.
    rewrite firstn_app, !length_app, !encode_int32_length.
    rewrite list_byte_of_string_length.
    replace (8 + String.length (message e)
             - (4 + 4 + String.length (message e))) with 0 by lia.
    rewrite firstn_O, app_nil_r. apply firstn_all2.
    rewrite !length_app, !encode_int32_length, list_byte_of_string_length.
    lia.
  - apply list_byte_of_string_length.
  - apply string_of_list_byte_of_string.
Qed.

(** C4: an [UnexpectedEEException] writes no trailer, whatever its
    message and however much context was appended: [serialize] appends
    the type value 1, the length of the message and the bytes of the
    message, eight bytes more than the message is long, and nothing
    else.  A message made of a NUL between two letters is written in
    full. *)
Theorem UnexpectedEEException_empty_trailer :
  forall (m more : string) (output : ReferenceSerializeOutput),
    p_serialize (UnexpectedEEException m) = [] /\
    p_serialize (appendContextToMessage more (UnexpectedEEException m)) = [] /\
    written (serialize (UnexpectedEEException m) output)
    = (written output
        ++ encode_int32 (byte_order output) 1
        ++ encode_int32 (byte_order output) (Z.of_nat (String.length m))
        ++ list_byte_of_string m)%list /\
    position (serialize (UnexpectedEEException m) output)
    = position output + 8 + String.length m /\
    written (serialize (UnexpectedEEException (String "a" (String NUL "b")))
                       (mkOutput LittleEndian []))
    = [Byte.x01; Byte.x00; Byte.x00; Byte.x00;
       Byte.x03; Byte.x00; Byte.x00; Byte.x00;
       Byte.x61; Byte.x00; Byte.x62].
Proof.
  intros m more output.
  assert (H : written (serialize (UnexpectedEEException m) output)
    = (written output
        ++ encode_int32 (byte_order output) 1
        ++ encode_int32 (byte_order output) (Z.of_nat (String.length m))
        ++ list_byte_of_string m)%list).
  { rewrite serialize_written. simpl. now rewrite app_nil_r. }
  repeat split; try exact H.
  - unfold position. rewrite H, !length_app, !encode_int32_length.
    rewrite list_byte_of_string_length. lia.
Qed.

(** ** Character arrays *)

Lemma store_chars_shift (cs : list ascii) (a : char_array) (i : nat)
    (x : option ascii) :
  store_chars (x :: a) (S i) cs = option_map (cons x) (store_chars a i cs).
Proof.
  revert a i; induction cs as [|c cs IH]; intros a i; simpl.
  - reflexivity.
  - destruct (store a i c) as [a'|]; simpl; [apply IH | reflexivity].
Qed.

(** Storing from the start of an array that is long enough overwrites
    its first cells and leaves the others. *)
Lemma store_chars_fits (cs : list ascii) (a : char_array) :
  List.length cs <= List.length a ->
  store_chars a 0 cs = Some (map Some cs ++ skipn (List.length cs) a)%list.
Proof.
  revert a; induction cs as [|c cs IH]; intros a H.
  - reflexivity.
  - destruct a as [|x a]; simpl in H; [lia|].
    simpl. rewrite store_chars_shift, IH by lia. reflexivity.
Qed.

(** Storing more characters than the array has cells is a fault. *)
Lemma store_chars_overrun (cs : list ascii) (a : char_array) :
  List.length a < List.length cs -> store_chars a 0 cs = None.
Proof.
  revert a; induction cs as [|c cs IH]; intros a H; simpl in H; [lia|].
  destruct a as [|x a]; [reflexivity|]. simpl in H.
  simpl. rewrite store_chars_shift, IH by lia. reflexivity.
Qed.

Lemma skipn_repeat {A : Type} (x : A) (k n : nat) :
  skipn k (repeat x n) = repeat x (n - k).
Proof.
  revert n; induction k as [|k IH]; intros n.
  - now rewrite Nat.sub_0_r.
  - destruct n as [|n]; simpl; [reflexivity | apply IH].
Qed.

Lemma string_of_c_str_terminated (cs : list ascii) (rest : char_array) :
  string_of_c_str (map Some (cs ++ [NUL]) ++ rest)
  = Some (string_of_list_ascii (c_chars cs)).
Proof.
  induction cs as [|c cs IH]; simpl.
  - reflexivity.
  - destruct (c =? NUL)%char; [reflexivity|].
    simpl in IH. now rewrite IH.
Qed.

Lemma c_chars_split (cs : list ascii) :
  exists k, cs = (c_chars cs ++ k)%list.
Proof.
  induction cs as [|c cs [k IH]]; simpl.
  - now exists [].
  - destruct (c =? NUL)%char.
    + now exists (c :: cs).
    + exists k. simpl. now rewrite <- IH.
Qed.

Lemma c_chars_length (cs : list ascii) :
  List.length (c_chars cs) <= List.length cs.
Proof.
  destruct (c_chars_split cs) as [k H].
  rewrite H at 2. rewrite length_app. lia.
Qed.

Lemma c_chars_no_nul (cs : list ascii) :
  forallb (fun c => negb (c =? NUL)%char) cs = true -> c_chars cs = cs.
Proof.
  induction cs as [|c cs IH]; simpl; intros H; [reflexivity|].
  apply andb_prop in H as [Hc Hcs].
  destruct (c =? NUL)%char; [discriminate | now rewrite IH].
Qed.

Lemma string_of_list_ascii_length (l : list ascii) :
  String.length (string_of_list_ascii l) = List.length l.
Proof.
  induction l as [|c l IH]; simpl; [reflexivity | now rewrite IH].
Qed.

Lemma string_of_list_ascii_app (a b : list ascii) :
  string_of_list_ascii (a ++ b)
  = (string_of_list_ascii a ++ string_of_list_ascii b)%string.
Proof.
  induction a as [|c a IH]; simpl; [reflexivity | now rewrite IH].
Qed.

(** ** Formatted raise *)

Section Snprintf.

Variable output_of : formatter.
Variables (format : string) (args : list va_arg) (out : list ascii).
Hypothesis rendered : output_of format args = Some out.

(** On a fresh array of [S room] cells, [snprintf] with size [S room]
    stores the first [room] characters of the output and a NUL, and
    leaves the cells after them as they were. *)
Lemma snprintf_fresh (room : nat) :
  snprintf output_of (repeat None (S room)) (S room) format args
  = Some ((map Some (firstn room out ++ [NUL])
           ++ repeat None (room - List.length (firstn room out)))%list,
          Z.of_nat (List.length out)).
Proof.
  unfold snprintf. rewrite rendered.
  assert (L : List.length (firstn room out ++ [NUL]) <= S room).
  { rewrite length_app, length_firstn. simpl. lia. }
  rewrite store_chars_fits by (rewrite repeat_length; exact L).
  rewrite skipn_repeat.
  replace (S room - List.length (firstn room out ++ [NUL]))
    with (room - List.length (firstn room out))
    by (rewrite length_app; change (List.length [NUL]) with 1; lia).
  reflexivity.
Qed.

Lemma snprintf_fresh_length (room : nat) (str : char_array) (n : Z) :
  snprintf output_of (repeat None (S room)) (S room) format args = Some (str, n) ->
  List.length str = S room.
Proof.
  rewrite snprintf_fresh. intros [= <- _].
  rewrite length_app, length_map, length_app, repeat_length.
  assert (H := length_firstn room out). simpl. lia.
Qed.

(** The array is too small for the size passed: the store of the
    terminator, or of a character before it, is out of range. *)
Lemma snprintf_overrun (cells room : nat) :
  cells <= room -> cells <= List.length out ->
  snprintf output_of (repeat None cells) (S room) format args = None.
Proof.
  intros H1 H2. unfold snprintf. rewrite rendered.
  rewrite store_chars_overrun; [reflexivity|].
  rewrite repeat_length, length_app, length_firstn. simpl. lia.
Qed.

Lemma throwSerializableEEException_msg_eq :
  throwSerializableEEException_msg output_of format args
  = Some (map Some (firstn 8191 out ++ [NUL])
          ++ repeat None (8191 - List.length (firstn 8191 out)))%list.
Proof.
  unfold throwSerializableEEException_msg.
  change 8192 with (S 8191). now rewrite snprintf_fresh.
Qed.

Lemma throwSerializableEEException_eq :
  throwSerializableEEException output_of format args
  = Some (Thrown (UnexpectedEEException
                    (string_of_list_ascii (c_chars (firstn 8191 out))))).
Proof.
  unfold throwSerializableEEException.
  rewrite throwSerializableEEException_msg_eq.
  now rewrite string_of_c_str_terminated.
Qed.

End Snprintf.

Lemma c_str_text_prefix (room : nat) (out : list ascii) :
  String.prefix (string_of_list_ascii (c_chars (firstn room out)))
                (string_of_list_ascii out) = true.
Proof.
  rewrite <- (firstn_skipn room out) at 2.
  destruct (c_chars_split (firstn room out)) as [k Hk].
  rewrite Hk at 2.
  rewrite !string_of_list_ascii_app, append_assoc.
  apply prefix_append.
Qed.

Lemma c_str_text_length (room : nat) (out : list ascii) :
  String.length (string_of_list_ascii (c_chars (firstn room out))) <= room.
Proof.
  rewrite string_of_list_ascii_length.
  assert (H1 := c_chars_length (firstn room out)).
  assert (H2 := length_firstn room out). lia.
Qed.

(** C6, amended: whenever the format and its arguments have a defined
    output, the block stores into [msg] the first 8191 characters of the output
    and a NUL, all inside the 8192 cells of the array, and throws an
    [UnexpectedEEException]; it never completes normally.  The message
    thrown is the text of [msg] up to its NUL: at most 8191 characters, a
    prefix of the output, and the whole output when that has at most 8191
    characters and no NUL among them. *)
Theorem throwSerializableEEException_bounded :
  forall (output_of : formatter) (format : string) (args : list va_arg)
         (out : list ascii),
    output_of format args = Some out ->
    exists (msg : char_array) (text : string),
      throwSerializableEEException_msg output_of format args = Some msg /\
      msg = map Some (firstn 8191 out ++ [NUL])
            ++ repeat None (8191 - List.length (firstn 8191 out)) /\
      List.length msg = 8192 /\
      throwSerializableEEException output_of format args
      = Some (Thrown (UnexpectedEEException text)) /\
      text = string_of_list_ascii (c_chars (firstn 8191 out)) /\
      String.length text <= 8191 /\
      String.prefix text (string_of_list_ascii out) = true /\
      (List.length out <= 8191 ->
       forallb (fun c => negb (c =? NUL)%char) out = true ->
       text = string_of_list_ascii out).
Proof.
  intros output_of format args out Hout.
  eexists; eexists.
  split; [apply (throwSerializableEEException_msg_eq _ _ _ _ Hout)|].
  split; [reflexivity|].
  split.
  { change 8192 with (S 8191). generalize 8191; intros room.
    rewrite length_app, length_map, length_app, repeat_length.
    assert (H := length_firstn room out).
    change (List.length [NUL]) with 1. lia. }
  split; [apply (throwSerializableEEException_eq _ _ _ _ Hout)|].
  split; [reflexivity|].
  split; [apply c_str_text_length|].
  split; [apply c_str_text_prefix|].
  intros Hlen Hnul.
  rewrite firstn_all2 by exact Hlen.
  now rewrite c_chars_no_nul.
Qed.

(** An output of 8200 letters, more than the array holds. *)
Lemma throwSerializableEEException_bounded_witness :
  exists (msg : char_array) (text : string),
    throwSerializableEEException_msg printf_output "%s"
      [va_str (string_of_list_ascii (repeat "a"%char 8200))] = Some msg /\
    msg = map Some (firstn 8191 (repeat "a"%char 8200) ++ [NUL])
          ++ repeat None
               (8191 - List.length (firstn 8191 (repeat "a"%char 8200))) /\
    List.length msg = 8192 /\
    throwSerializableEEException printf_output "%s"
      [va_str (string_of_list_ascii (repeat "a"%char 8200))]
    = Some (Thrown (UnexpectedEEException text)) /\
    text = string_of_list_ascii
             (c_chars (firstn 8191 (repeat "a"%char 8200))) /\
    String.length text <= 8191 /\
    String.prefix text (string_of_list_ascii (repeat "a"%char 8200))
      = true /\
    (List.length (repeat "a"%char 8200) <= 8191 ->
     forallb (fun c => negb (c =? NUL)%char) (repeat "a"%char 8200) = true ->
     text = string_of_list_ascii (repeat "a"%char 8200)).
Proof.
  apply (throwSerializableEEException_bounded printf_output "%s"
           [va_str (string_of_list_ascii (repeat "a"%char 8200))]
           (repeat "a"%char 8200)).
  vm_compute. reflexivity.
Defined.

(** C6, as stated, fails: the output of ["ab%cde"] for the character 0
    has five characters, far fewer than the array holds, and the message
    thrown is ["ab"], not the output. *)
Lemma formatted_text_counterexample :
  ~ (forall (output_of : formatter) (format : string) (args : list va_arg)
            (out : list ascii),
       output_of format args = Some out ->
       exists e,
         throwSerializableEEException output_of format args
         = Some (Thrown e) /\
         message e = string_of_list_ascii (firstn 8191 out)).
Proof.
  intros H.
  destruct (H printf_output "ab%cde" [va_int 0]
              ["a"; "b"; NUL; "d"; "e"]%char eq_refl) as [e [He Hm]].
  vm_compute in He. injection He as <-.
  vm_compute in Hm. discriminate.
Qed.

(** With an array shorter than the size handed to [snprintf] the same
    call would store out of range. *)
Example snprintf_small_array :
  snprintf printf_output (repeat None 4) 8 "%s" [va_str "overflow"] = None.
Proof. reflexivity. Qed.




(** ** Streamed raise *)

Lemma fold_stream_put (vs : list Streamable) (buffer : string) :
  fold_left stream_put vs buffer
  = (buffer ++ String.concat EmptyString (map stream_text vs))%string.
Proof.
  revert buffer; induction vs as [|v vs IH]; intros buffer; simpl.
  - now rewrite append_empty_r.
  - rewrite IH. unfold stream_put. rewrite append_assoc. f_equal.
    destruct vs as [|v' vs]; simpl; [now rewrite append_empty_r | reflexivity].
Qed.

(** The streamed block throws the texts of the values one after the
    other with nothing between them, then a space, the file, a colon,
    the line and a newline. *)
Lemma throwUnexpectedEEExceptionStreamed_message (vs : list Streamable)
    (FILE : string) (LINE : Z) :
  throwUnexpectedEEExceptionStreamed vs FILE LINE
  = Thrown (UnexpectedEEException
      (String.concat EmptyString (map stream_text vs)
       ++ " " ++ stream_text (StreamCStr FILE) ++ ":"
       ++ stream_text (StreamInt LINE) ++ newline)%string).
Proof.
  unfold throwUnexpectedEEExceptionStreamed.
  rewrite fold_left_app, !fold_stream_put. reflexivity.
Qed.

(** C7, as stated, fails: the message thrown for the values
    ["bad plan id"] and [7] at line 88 of ["plan.cc"] is not
    ["bad plan id 7 plan.cc:88"]. *)
Lemma streamed_message_counterexample :
  thrown_message
    (Some (throwUnexpectedEEExceptionStreamed
             [StreamCStr "bad plan id"; StreamInt 7] "plan.cc" 88))
  <> Some "bad plan id 7 plan.cc:88".
Proof. vm_compute. discriminate. Qed.

(** C7, amended: the message thrown for the values ["bad plan id"] and
    [7] at line 88 of ["plan.cc"] is ["bad plan id7 plan.cc:88"]
    followed by a newline: the texts of the values in order with nothing
    between them, one space, the file, a colon, the line, a newline. *)
Theorem streamed_message_scenario :
  throwUnexpectedEEExceptionStreamed
    [StreamCStr "bad plan id"; StreamInt 7] "plan.cc" 88
  = Thrown (UnexpectedEEException ("bad plan id7 plan.cc:88" ++ newline)%string)
  /\
  thrown_message
    (Some (throwUnexpectedEEExceptionStreamed
             [StreamCStr "bad plan id"; StreamInt 7] "plan.cc" 88))
  = Some ("bad plan id" ++ "7" ++ " " ++ "plan.cc" ++ ":" ++ "88"
          ++ newline)%string.
Proof. split; reflexivity. Qed.

(** * Further properties of the header *)

(** ** Context appended by several frames *)

Lemma appendContextToMessage_empty (e : SerializableEEException) :
  appendContextToMessage EmptyString e = e.
Proof.
  destruct e as [t m cls]. unfold appendContextToMessage; simpl.
  now rewrite append_empty_r.
Qed.

Lemma appendContextToMessage_twice (e : SerializableEEException)
    (a b : string) :
  appendContextToMessage b (appendContextToMessage a e)
  = appendContextToMessage (a ++ b)%string e.
Proof.
  unfold appendContextToMessage; simpl. now rewrite append_assoc.
Qed.

Lemma concat_empty_cons (x : string) (xs : list string) :
  String.concat EmptyString (x :: xs)
  = (x ++ String.concat EmptyString xs)%string.
Proof.
  destruct xs as [|y xs]; simpl; [now rewrite append_empty_r | reflexivity].
Qed.

(** X1: appending a list of texts one call at a time leaves the same
    object as one call with their concatenation; with no text at all
    the object is unchanged. *)
Theorem appendContexts_concat :
  forall (mores : list string) (e : SerializableEEException),
    appendContexts mores e
    = appendContextToMessage (String.concat EmptyString mores) e /\
    appendContexts [] e = e /\
    appendContextToMessage EmptyString e = e /\
    m_message (appendContexts mores e)
    = (m_message e ++ String.concat EmptyString mores)%string.
Proof.
  assert (H : forall mores e,
             appendContexts mores e
             = appendContextToMessage (String.concat EmptyString mores) e).
  { intros mores; induction mores as [|more mores IH]; intros e.
    - simpl. now rewrite appendContextToMessage_empty.
    - change (appendContexts (more :: mores) e)
        with (appendContexts mores (appendContextToMessage more e)).
      now rewrite IH, appendContextToMessage_twice, concat_empty_cons. }
  intros mores e. repeat split.
  - apply H.
  - apply appendContextToMessage_empty.
  - now rewrite H.
Qed.

(** X2: after any sequence of calls of [message], [getType],
    [appendContextToMessage] and [serialize], the object is the initial
    one with the appended texts, in call order, added to its message in
    one piece; for an [UnexpectedEEException] built from [m],
    [message()] then returns [m] followed by these texts. *)
Theorem run_calls_object :
  forall (calls : list Call) (e : SerializableEEException)
         (out : ReferenceSerializeOutput) (rets : list CallResult)
         (m : string),
    object (run_calls calls (mkState e out rets))
    = appendContextToMessage (appended_text calls) e /\
    message (object (run_calls calls
                       (mkState (UnexpectedEEException m) out rets)))
    = (m ++ appended_text calls)%string.
Proof.
  assert (H : forall calls e out rets,
             object (run_calls calls (mkState e out rets))
             = appendContextToMessage (appended_text calls) e).
  { intros calls; induction calls as [|c calls IH]; intros e out rets.
    - simpl. now rewrite appendContextToMessage_empty.
    - rewrite run_calls_cons.
      destruct c; simpl do_call; rewrite IH; simpl appended_text;
        try reflexivity.
      apply appendContextToMessage_twice. }
  intros calls e out rets m. split; [apply H|].
  now rewrite H.
Qed.

(** ** C strings *)

Lemma no_NUL_c_chars (cs : list ascii) : no_NUL (c_chars cs) = true.
Proof.
  induction cs as [|c cs IH]; simpl; [reflexivity|].
  destruct (c =? NUL)%char eqn:E; [reflexivity|].
  unfold no_NUL in *. simpl. now rewrite E, IH.
Qed.

Lemma no_NUL_firstn (n : nat) (cs : list ascii) :
  no_NUL cs = true -> no_NUL (firstn n cs) = true.
Proof.
  unfold no_NUL. revert n; induction cs as [|c cs IH]; intros n H.
  - now rewrite firstn_nil.
  - destruct n as [|n]; [reflexivity|].
    simpl in *. apply andb_prop in H as [Hc Hcs].
    now rewrite Hc, IH.
Qed.

Lemma list_ascii_of_string_length (s : string) :
  List.length (list_ascii_of_string s) = String.length s.
Proof.
  induction s as [|c s IH]; simpl; [reflexivity | now rewrite IH].
Qed.

Lemma plain_format_no_NUL (format : string) :
  plain_format format = true ->
  no_NUL (list_ascii_of_string format) = true.
Proof.
  unfold plain_format, no_NUL.
  induction (list_ascii_of_string format) as [|c cs IH]; simpl;
    [reflexivity|].
  intros H. apply andb_prop in H as [Hc Hcs].
  apply andb_prop in Hc as [Hc _]. now rewrite Hc, IH.
Qed.

(** ** The output of [snprintf] in an array of any content *)



(** ** Messages thrown by the formatted raise *)

Lemma throwSerializableEEException_undefined (output_of : formatter)
    (format : string) (args : list va_arg) :
  output_of format args = None ->
  throwSerializableEEException output_of format args = None.
Proof.
  intros E.
  unfold throwSerializableEEException, throwSerializableEEException_msg,
    snprintf.
  now rewrite E.
Qed.

(** X4: whenever the output is defined, the exception thrown by the
    formatted raise has type [VOLT_EE_EXCEPTION_TYPE_EEEXCEPTION] and a
    message without any NUL character: the message is read from the
    array as a C string. *)
Theorem formatted_message_no_NUL :
  forall (output_of : formatter) (format : string) (args : list va_arg)
         (out : list ascii),
    output_of format args = Some out ->
    exists e,
      throwSerializableEEException output_of format args = Some (Thrown e) /\
      getType e = VOLT_EE_EXCEPTION_TYPE_EEEXCEPTION /\
      no_NUL (list_ascii_of_string (message e)) = true.
Proof.
  intros output_of format args out Hout.
  eexists. split; [apply (throwSerializableEEException_eq _ _ _ _ Hout)|].
  split; [reflexivity|].
  change (message (UnexpectedEEException ?s)) with s.
  rewrite list_ascii_of_string_of_list_ascii. apply no_NUL_c_chars.
Qed.

(** The output of ["ab%cde"] for the character 0 has a NUL in the
    middle. *)
Lemma formatted_message_no_NUL_witness :
  exists e,
    throwSerializableEEException printf_output "ab%cde" [va_int 0]
    = Some (Thrown e) /\
    getType e = VOLT_EE_EXCEPTION_TYPE_EEEXCEPTION /\
    no_NUL (list_ascii_of_string (message e)) = true.
Proof.
  apply (formatted_message_no_NUL printf_output "ab%cde" [va_int 0]
           ["a"; "b"; NUL; "d"; "e"]%char).
  reflexivity.
Defined.

Lemma c_chars_firstn_c_chars (n : nat) (cs : list ascii) :
  c_chars (firstn n (c_chars cs)) = firstn n (c_chars cs).
Proof.
  apply c_chars_no_nul. apply (no_NUL_firstn n), no_NUL_c_chars.
Qed.

Lemma printf_output_percent_s (s : string) :
  printf_output "%s" [va_str s] = Some (c_chars (list_ascii_of_string s)).
Proof.
  unfold printf_output. cbn. now rewrite app_nil_r.
Qed.

Lemma throw_percent_s (s : string) :
  throwSerializableEEException printf_output "%s" [va_str s]
  = Some (Thrown (UnexpectedEEException
       (string_of_list_ascii (firstn 8191 (c_chars (list_ascii_of_string s)))))).
Proof.
  rewrite (throwSerializableEEException_eq _ _ _ _ (printf_output_percent_s s)).
  now rewrite c_chars_firstn_c_chars.
Qed.

(** X5: the formatted raise with the format ["%s"] and a C string
    throws, for every string, the characters before its first NUL cut to
    8191: a prefix of the string of at most 8191 characters. *)
Theorem formatted_percent_s :
  forall s : string,
    exists text : string,
      throwSerializableEEException printf_output "%s" [va_str s]
      = Some (Thrown (UnexpectedEEException text)) /\
      text = string_of_list_ascii
               (firstn 8191 (c_chars (list_ascii_of_string s))) /\
      String.length text <= 8191 /\
      String.prefix text s = true.
Proof.
  intros s. eexists. split; [apply throw_percent_s|].
  split; [reflexivity|]. split.
  - rewrite string_of_list_ascii_length, length_firstn. lia.
  - rewrite <- c_chars_firstn_c_chars.
    rewrite <- (string_of_list_ascii_of_string s) at 2.
    destruct (c_chars_split (list_ascii_of_string s)) as [k Hk].
    rewrite Hk at 2. rewrite string_of_list_ascii_app.
    eapply prefix_trans; [apply c_str_text_prefix | apply prefix_append].
Qed.

(** X6: raising again with the format ["%s"] and the message of an
    exception thrown by the formatted raise throws the same exception:
    such a message has no NUL and at most 8191 characters, so nothing is
    lost the second time. *)
Theorem formatted_reraise :
  forall (output_of : formatter) (format : string) (args : list va_arg)
         (e : SerializableEEException),
    throwSerializableEEException output_of format args = Some (Thrown e) ->
    throwSerializableEEException printf_output "%s" [va_str (message e)]
    = Some (Thrown e).
Proof.
  intros output_of format args e H.
  destruct (output_of format args) as [out|] eqn:E.
  - rewrite (throwSerializableEEException_eq _ _ _ _ E) in H.
    assert (He : UnexpectedEEException
                   (string_of_list_ascii (c_chars (firstn 8191 out))) = e).
    { exact (f_equal (fun c => match c with
                               | Some (Thrown x) => x
                               | _ => e
                               end) H). }
    rewrite <- He.
    change (message (UnexpectedEEException ?s)) with s.
    rewrite throw_percent_s, list_ascii_of_string_of_list_ascii.
    rewrite (c_chars_no_nul (c_chars _)) by apply no_NUL_c_chars.
    rewrite firstn_all2; [reflexivity|].
    assert (H1 := c_chars_length (firstn 8191 out)).
    assert (H2 := length_firstn 8191 out). lia.
  - rewrite (throwSerializableEEException_undefined _ _ _ E) in H.
    discriminate.
Qed.

Lemma formatted_reraise_witness :
  throwSerializableEEException printf_output "%s"
    [va_str (message (UnexpectedEEException "row 42"))]
  = Some (Thrown (UnexpectedEEException "row 42")).
Proof.
  apply (formatted_reraise printf_output "row %d" [va_int 42]
           (UnexpectedEEException "row 42")).
  vm_compute. reflexivity.
Defined.

Lemma vformat_plain (format : string) (args : list va_arg) :
  plain_format format = true ->
  printf_output format args = Some (list_ascii_of_string format).
Proof.
  unfold plain_format, printf_output.
  induction format as [|c format IH]; intros H; [reflexivity|].
  cbn [list_ascii_of_string forallb] in H.
  apply andb_prop in H as [Hc Hrest].
  apply andb_prop in Hc as [Hnul Hpct].
  cbn [vformat list_ascii_of_string].
  destruct (c =? NUL)%char; [discriminate|].
  destruct (c =? "%")%char; [discriminate|].
  now rewrite (IH Hrest).
Qed.

(** X7: a format without [%] and without NUL, of at most 8191
    characters, is thrown as it is, whatever arguments follow it. *)
Theorem formatted_plain_text :
  forall (format : string) (args : list va_arg),
    plain_format format = true ->
    String.length format <= 8191 ->
    throwSerializableEEException printf_output format args
    = Some (Thrown (UnexpectedEEException format)).
Proof.
  intros format args Hplain Hlen.
  rewrite (throwSerializableEEException_eq _ _ _ _
             (vformat_plain format args Hplain)).
  rewrite firstn_all2 by (rewrite list_ascii_of_string_length; exact Hlen).
  rewrite c_chars_no_nul by (apply plain_format_no_NUL, Hplain).
  now rewrite string_of_list_ascii_of_string.
Qed.

Lemma formatted_plain_text_witness :
  throwSerializableEEException printf_output "divide by zero" [va_int 3]
  = Some (Thrown (UnexpectedEEException "divide by zero")).
Proof.
  apply (formatted_plain_text "divide by zero" [va_int 3]).
  - reflexivity.
  - apply Nat.leb_le. reflexivity.
Defined.

(** X9: two formatted raises whose outputs agree on their first 8191
    characters throw the same exception: no character past the bound
    reaches the message. *)
Theorem formatted_tail_ignored :
  forall (output_of1 output_of2 : formatter) (format1 format2 : string)
         (args1 args2 : list va_arg) (out1 out2 : list ascii),
    output_of1 format1 args1 = Some out1 ->
    output_of2 format2 args2 = Some out2 ->
    firstn 8191 out1 = firstn 8191 out2 ->
    throwSerializableEEException output_of1 format1 args1
    = throwSerializableEEException output_of2 format2 args2.
Proof.
  intros output_of1 output_of2 format1 format2 args1 args2 out1 out2
         H1 H2 Heq.
  rewrite (throwSerializableEEException_eq _ _ _ _ H1).
  rewrite (throwSerializableEEException_eq _ _ _ _ H2).
  now rewrite Heq.
Qed.

(** Outputs of 8191 letters followed by different tails. *)
Lemma formatted_tail_ignored_witness :
  throwSerializableEEException printf_output "%s%d"
    [va_str (string_of_list_ascii (repeat "a"%char 8191)); va_int 1]
  = throwSerializableEEException printf_output "%s%s"
      [va_str (string_of_list_ascii (repeat "a"%char 8191)); va_str "xyz"].
Proof.
  apply (formatted_tail_ignored printf_output printf_output "%s%d" "%s%s"
           [va_str (string_of_list_ascii (repeat "a"%char 8191)); va_int 1]
           [va_str (string_of_list_ascii (repeat "a"%char 8191));
            va_str "xyz"]
           (repeat "a"%char 8191 ++ ["1"%char])
           (repeat "a"%char 8191 ++ list_ascii_of_string "xyz")).
  - vm_compute. reflexivity.
  - vm_compute. reflexivity.
  - vm_compute. reflexivity.
Defined.

(** ** Messages thrown by the streamed raise *)

Lemma decimal_in_range (z : Z) :
  in_int_range z = true ->
  string_of_list_ascii (decimal z) = int_digits z.
Proof.
  unfold in_int_range, decimal, int_digits. intros H.
  apply andb_prop in H as [Hlo Hhi].
  apply Z.leb_le in Hlo. apply Z.ltb_lt in Hhi.
  rewrite to_int32_small by lia.
  apply string_of_list_ascii_of_string.
Qed.

Lemma stream_text_in_range (v : Streamable) :
  streamable_in_range v = true -> stream_text v = value_text v.
Proof.
  destruct v as [s|s|z|c]; simpl; intros H; try reflexivity.
  now apply decimal_in_range.
Qed.

Lemma map_stream_text_in_range (vs : list Streamable) :
  forallb streamable_in_range vs = true ->
  map stream_text vs = map value_text vs.
Proof.
  induction vs as [|v vs IH]; simpl; intros H; [reflexivity|].
  apply andb_prop in H as [Hv Hvs].
  now rewrite stream_text_in_range, IH.
Qed.

(** X8: for every sequence of values that are C strings, [std::string]s,
    [int]s or [char]s, put into the stream in its default state, and for
    every file and line of type [int], the streamed raise throws an
    exception of type [VOLT_EE_EXCEPTION_TYPE_EEEXCEPTION] whose message
    is the texts of the values one after the other with nothing between
    them, then a space, the file as a C string, a colon, the line in
    decimal and a newline; nothing is cut to a length. *)
Theorem streamed_message_shape :
  forall (vs : list Streamable) (FILE : string) (LINE : Z),
    forallb streamable_in_range vs = true ->
    in_int_range LINE = true ->
    exists e,
      throwUnexpectedEEExceptionStreamed vs FILE LINE = Thrown e /\
      getType e = VOLT_EE_EXCEPTION_TYPE_EEEXCEPTION /\
      message e
      = (String.concat EmptyString (map value_text vs)
         ++ " " ++ string_of_list_ascii (c_chars (list_ascii_of_string FILE))
         ++ ":" ++ int_digits LINE ++ newline)%string /\
      String.length (message e)
      = String.length (String.concat EmptyString (map value_text vs))
        + List.length (c_chars (list_ascii_of_string FILE))
        + String.length (int_digits LINE) + 3.
Proof.
  intros vs FILE LINE Hvs Hline. eexists.
  split; [apply throwUnexpectedEEExceptionStreamed_message|].
  split; [reflexivity|].
  change (message (UnexpectedEEException ?s)) with s.
  cbn [stream_text].
  rewrite (map_stream_text_in_range vs Hvs), (decimal_in_range LINE Hline).
  split; [reflexivity|].
  rewrite !append_length, !string_of_list_ascii_length.
  unfold newline. cbn [String.length]. lia.
Qed.

(** One value of each kind, at line 88 of ["plan.cc"]. *)
Lemma streamed_message_shape_witness :
  exists e,
    throwUnexpectedEEExceptionStreamed
      [StreamCStr "bad plan id "; StreamInt (-7); StreamChar "/";
       StreamString "p"] "plan.cc" 88 = Thrown e /\
    getType e = VOLT_EE_EXCEPTION_TYPE_EEEXCEPTION /\
    message e
    = (String.concat EmptyString
         (map value_text
            [StreamCStr "bad plan id "; StreamInt (-7); StreamChar "/";
             StreamString "p"])
       ++ " " ++ string_of_list_ascii (c_chars (list_ascii_of_string "plan.cc"))
       ++ ":" ++ int_digits 88 ++ newline)%string /\
    String.length (message e)
    = String.length
        (String.concat EmptyString
           (map value_text
              [StreamCStr "bad plan id "; StreamInt (-7); StreamChar "/";
               StreamString "p"]))
      + List.length (c_chars (list_ascii_of_string "plan.cc"))
      + String.length (int_digits 88) + 3.
Proof.
  apply (streamed_message_shape
           [StreamCStr "bad plan id "; StreamInt (-7); StreamChar "/";
            StreamString "p"] "plan.cc" 88).
  - reflexivity.
  - reflexivity.
Defined.
